(** * The n-chain environment of the reward-shaping lesson

    A shallow embedding of the two environment classes defined in
    [ray-rllib/05-Custom-Environments-Reward-Shaping.ipynb]:
    [ChainEnv] (exercise 1) and its subclass [ShapedChainEnv]
    (exercise 2), together with the properties of their [reset] and
    [step] methods.

    Python integers are unbounded, so they are embedded as [Z].  An
    instance is a record of its attributes; a method is a computation
    in a small state-and-exception monad over that record, so that a
    raised exception leaves the attributes as they were when it was
    raised, exactly as for a Python object. *)

From Stdlib Require Import ZArith Lia.
From stdpp Require Import base option list gmap strings.

Local Open Scope Z_scope.

(** ** The [gym.spaces] interface used by the environment *)

Module spaces.

(** Modelled from the spec: the membership check of the external
    framework's sample space.  The lesson describes [Discrete k] as
    the space of the integers [0] to [k-1] ("a space with 10 discrete
    values, 0 through 9"), and the action space of the chain as "an
    integer in [0, 1]", that is [Discrete 2]. *)
Inductive Space : Type :=
| Discrete (k : Z).

(** Modelled from the spec: [Space.contains] of the external framework,
    on integers; [Discrete k] contains [x] when [0 ≤ x < k]. *)
Definition contains (sp : Space) (x : Z) : bool :=
  match sp with
  | Discrete k => (0 <=? x) && (x <? k)
  end.

End spaces.

(** ** Python exceptions and the method monad *)

Inductive exn : Type :=
| AttributeError   (* attribute access on [None] *)
| AssertionError.  (* a failed [assert] *)

Inductive outcome (A : Type) : Type :=
| Return (a : A)
| Raise (x : exn).
Arguments Return {A} a.
Arguments Raise {A} x.

(** A method of an object with attributes [S]: it yields a value or
    raises, and in both cases leaves the attributes in some state. *)
Definition method (S A : Type) : Type := S → outcome A * S.

Section method_monad.
Context {S : Type}.

#[global] Instance method_ret : MRet (method S) :=
  λ A (a : A) (s : S), (Return a, s).

#[global] Instance method_bind : MBind (method S) :=
  λ A B (f : A → method S B) (m : method S A) (s : S),
    match m s with
    | (Return a, s') => f a s'
    | (Raise x, s') => (Raise x, s')
    end.

Definition raise {A} (x : exn) : method S A := λ s, (Raise x, s).

(** [self.attr] *)
Definition getattr {A} (attr : S → A) : method S A := λ s, (Return (attr s), s).

(** [self.attr = ...], given as the update of the record *)
Definition setattr (upd : S → S) : method S unit := λ s, (Return tt, upd s).

(** [assert b] *)
Definition py_assert (b : bool) : method S unit :=
  if b then mret tt else raise AssertionError.

(** The attributes after the call, whether it returned or raised. *)
Definition exec {A} (m : method S A) (s : S) : S := (m s).2.

(** The returned value, if the call returned. *)
Definition result {A} (m : method S A) (s : S) : option A :=
  match (m s).1 with
  | Return a => Some a
  | Raise _ => None
  end.

(** A sequence of calls [f a1; f a2; ...]: the first exception ends it. *)
Fixpoint calls {A B} (f : A → method S B) (args : list A) : method S (list B) :=
  match args with
  | [] => mret []
  | a :: args' => r ← f a; rs ← calls f args'; mret (r :: rs)
  end.
End method_monad.

(** ** [class ChainEnv(gym.Env)] *)

Module ChainEnv.

(** The instance attributes.  [action_space] and [observation_space]
    hold [None] or a space object. *)
Record t : Type := mk {
  n : Z;
  small_reward : Z;
  large_reward : Z;
  state : Z;
  _horizon : Z;
  _counter : Z;
  action_space : option spaces.Space;
  observation_space : option spaces.Space
}.

Definition set_state (v : Z) (self : t) : t :=
  mk (n self) (small_reward self) (large_reward self) v
     (_horizon self) (_counter self) (action_space self) (observation_space self).

Definition set_counter (v : Z) (self : t) : t :=
  mk (n self) (small_reward self) (large_reward self) (state self)
     (_horizon self) v (action_space self) (observation_space self).

Definition set_action_space (v : option spaces.Space) (self : t) : t :=
  mk (n self) (small_reward self) (large_reward self) (state self)
     (_horizon self) (_counter self) v (observation_space self).

Definition set_observation_space (v : option spaces.Space) (self : t) : t :=
  mk (n self) (small_reward self) (large_reward self) (state self)
     (_horizon self) (_counter self) (action_space self) v.

(** The value [step] returns: [(state, reward, done, info)]. *)
Definition step_result : Type := Z * Z * bool * gmap string Z.

Definition obs (r : step_result) : Z := r.1.1.1.
Definition reward (r : step_result) : Z := r.1.1.2.
Definition done (r : step_result) : bool := r.1.2.
Definition info (r : step_result) : gmap string Z := r.2.

(** [_setup_spaces]: both assignments are the placeholder [None]. *)
Definition _setup_spaces : method t unit :=
  setattr (set_action_space None);;
  setattr (set_observation_space None).

(** [env_config or {}]: [None] and the empty dictionary are falsy. *)
Definition or_empty (env_config : option (gmap string Z)) : gmap string Z :=
  match env_config with
  | None => ∅
  | Some d => if decide (d = ∅) then ∅ else d
  end.

(** [__init__(self, env_config = None)].  [d.get(k, v)] is
    [default v (d !! k)]. *)
Definition __init__ (env_config : option (gmap string Z)) : t :=
  let env_config := or_empty env_config in
  let n := default 20 (env_config !! "n") in
  let small := default 2 (env_config !! "small") in
  let large := default 10 (env_config !! "large") in
  exec _setup_spaces
    {| n := n; small_reward := small; large_reward := large;
       state := 0; _horizon := n; _counter := 0;
       action_space := None; observation_space := None |}.

(** [self.action_space.contains(action)]: looking up [contains] on
    [None] raises [AttributeError]. *)
Definition action_space_contains (action : Z) : method t bool :=
  sp ← getattr action_space;
  match sp with
  | None => raise AttributeError
  | Some sp => mret (spaces.contains sp action)
  end.

(** [step(self, action)].  Each branch of the conditional binds
    [reward]; as written in the lesson all three bind [-1]. *)
Definition step (action : Z) : method t step_result :=
  ok ← action_space_contains action;
  py_assert ok;;
  reward ←
    (if action =? 1 then
       let reward := -1 in
       setattr (set_state 0);;
       mret reward
     else
       st ← getattr state;
       n ← getattr n;
       if st <? n - 1 then
         let reward := -1 in
         setattr (set_state (st + 1));;
         mret reward
       else
         let reward := -1 in
         mret reward);
  c ← getattr _counter;
  setattr (set_counter (c + 1));;
  c ← getattr _counter;
  h ← getattr _horizon;
  let done := bool_decide (h ≤ c) in
  st ← getattr state;
  mret (st, reward, done, ∅).

(** [reset(self)] *)
Definition reset : method t Z :=
  setattr (set_state 0);;
  setattr (set_counter 0);;
  getattr state.

End ChainEnv.

(** ** [class ShapedChainEnv(ChainEnv)]

    The subclass overrides [step] only; the attributes, [__init__],
    [_setup_spaces] and [reset] are inherited. *)

Module ShapedChainEnv.
Import ChainEnv.

Definition step (action : Z) : method t step_result :=
  ok ← action_space_contains action;
  py_assert ok;;
  reward ←
    (if action =? 1 then
       let reward := -1 in
       setattr (set_state 0);;
       mret reward
     else
       st ← getattr state;
       n ← getattr n;
       if st <? n - 1 then
         let reward := -1 in
         setattr (set_state (st + 1));;
         mret reward
       else
         let reward := -1 in
         mret reward);
  c ← getattr _counter;
  setattr (set_counter (c + 1));;
  c ← getattr _counter;
  h ← getattr _horizon;
  let done := bool_decide (h ≤ c) in
  st ← getattr state;
  mret (st, reward, done, ∅).

End ShapedChainEnv.

(** ** Vocabulary of the properties *)

Import ChainEnv.

(** The two actions of the chain: [0] advances, [1] retreats. *)
Definition valid_action (a : Z) : Prop := a = 0 ∨ a = 1.

(** The position lies on the chain. *)
Definition on_chain (e : t) : Prop := 0 ≤ state e ≤ n e - 1.

(** The position [step] moves to, read off its conditional. *)
Definition next_state (a : Z) (e : t) : Z :=
  if a =? 1 then 0
  else if state e <? n e - 1 then state e + 1
  else state e.

(** An instance whose [action_space] has been assigned
    [spaces.Discrete(2)], the assignment the lesson asks for. *)
Definition with_actions (e : t) : t :=
  set_action_space (Some (spaces.Discrete 2)) e.

(** Two instances agree on everything [step] and [reset] read or write. *)
Definition same_episode (e1 e2 : t) : Prop :=
  state e1 = state e2 ∧ _counter e1 = _counter e2 ∧
  n e1 = n e2 ∧ small_reward e1 = small_reward e2 ∧
  large_reward e1 = large_reward e2 ∧ _horizon e1 = _horizon e2 ∧
  action_space e1 = action_space e2.

(** The three ways a [step] call can end. *)
Inductive step_spec (a : Z) (e : t) : outcome step_result * t → Prop :=
| step_spec_no_space :
    action_space e = None →
    step_spec a e (Raise AttributeError, e)
| step_spec_rejected sp :
    action_space e = Some sp → spaces.contains sp a = false →
    step_spec a e (Raise AssertionError, e)
| step_spec_accepted sp :
    action_space e = Some sp → spaces.contains sp a = true →
    step_spec a e
      (Return (next_state a e, -1,
               bool_decide (_horizon e ≤ _counter e + 1), ∅),
       set_counter (_counter e + 1) (set_state (next_state a e) e)).

(** One operation on an instance: a [reset] call or a [step] call with
    any argument, ending in a return or in an exception.  An episode is
    a chain of operations, [rtc operation]. *)
Inductive operation (e : t) : t → Prop :=
| op_reset : operation e (exec reset e)
| op_step (a : Z) : operation e (exec (step a) e).

(** The attributes no operation assigns. *)
Definition static (e : t) : Z * Z * Z * Z * option spaces.Space * option spaces.Space :=
  (n e, small_reward e, large_reward e, _horizon e,
   action_space e, observation_space e).

(** ** Counting samples of a discrete space

    [counts = {key:0 for key in range(10)}], then for each of the 200
    draws [key = spaces.Discrete(10).sample()] the update
    [counts[key] = counts[key] + 1].  The draws are a parameter, the
    list [samples]; reading [counts[key]] for a key that is not in the
    dictionary raises [KeyError], here [None]. *)

Module sampling.

Definition initial_counts : gmap Z Z :=
  list_to_map ((λ key, (key, 0)) <$> seqZ 0 10).

Definition count_one (counts : gmap Z Z) (key : Z) : option (gmap Z Z) :=
  c ← counts !! key; Some (<[key := c + 1]> counts).

Fixpoint count_from (counts : gmap Z Z) (samples : list Z) : option (gmap Z Z) :=
  match samples with
  | [] => Some counts
  | key :: samples' => counts' ← count_one counts key; count_from counts' samples'
  end.

Definition count_samples (samples : list Z) : option (gmap Z Z) :=
  count_from initial_counts samples.

(** How often [key] was drawn. *)
Definition occurrences (key : Z) (samples : list Z) : Z :=
  Z.of_nat (length (filter (λ x, x = key) samples)).

End sampling.

(** ** Basic facts about [step] and [reset] *)

Section step_facts.
Implicit Types (e : t) (a : Z) (sp : spaces.Space).

Lemma contains_Discrete_2 a :
  spaces.contains (spaces.Discrete 2) a = true ↔ valid_action a.
Proof.
  unfold valid_action; cbn.
  rewrite andb_true_iff, Z.leb_le, Z.ltb_lt. lia.
Qed.

Lemma set_state_same e : set_state (state e) e = e.
Proof. by destruct e. Qed.

(** Without an action space the call raises before anything is written. *)
Lemma step_no_space a e :
  action_space e = None → step a e = (Raise AttributeError, e).
Proof. destruct e; cbn. by intros ->. Qed.

(** A rejected action raises before anything is written. *)
Lemma step_rejected a e sp :
  action_space e = Some sp → spaces.contains sp a = false →
  step a e = (Raise AssertionError, e).
Proof.
  destruct e; cbn. intros -> Hc.
  unfold step, action_space_contains, mbind, method_bind; cbn.
  by rewrite Hc.
Qed.

(** An accepted action: the whole effect of the call. *)
Lemma step_accepted a e sp :
  action_space e = Some sp → spaces.contains sp a = true →
  step a e =
    (Return (next_state a e, -1, bool_decide (_horizon e ≤ _counter e + 1), ∅),
     set_counter (_counter e + 1) (set_state (next_state a e) e)).
Proof.
  destruct e as [n0 sm lg st h c asp osp]; cbn. intros -> Hc.
  unfold step, action_space_contains, next_state, mbind, method_bind; cbn.
  rewrite Hc; cbn.
  destruct (a =? 1); cbn; [done|].
  by destruct (st <? n0 - 1).
Qed.

Lemma step_cases a e : step_spec a e (step a e).
Proof.
  destruct (action_space e) as [sp|] eqn:Hsp.
  - destruct (spaces.contains sp a) eqn:Hc.
    + rewrite (step_accepted a e sp Hsp Hc). by eapply step_spec_accepted.
    + rewrite (step_rejected a e sp Hsp Hc). by eapply step_spec_rejected.
  - rewrite (step_no_space a e Hsp). by apply step_spec_no_space.
Qed.

Lemma next_state_on_chain a e :
  1 ≤ n e → on_chain e → 0 ≤ next_state a e ≤ n e - 1.
Proof.
  unfold on_chain, next_state. intros Hn Hs.
  destruct (a =? 1); [lia|].
  destruct (Z.ltb_spec (state e) (n e - 1)); lia.
Qed.

(** Whatever the outcome, only [state] and [_counter] are written. *)
Lemma step_writes a e :
  ∃ s c, exec (step a) e = set_counter c (set_state s e).
Proof.
  unfold exec. destruct (step_cases a e); cbn.
  - exists (state e), (_counter e). by destruct e.
  - exists (state e), (_counter e). by destruct e.
  - eauto.
Qed.

Lemma step_preserves_on_chain a e :
  1 ≤ n e → on_chain e → on_chain (exec (step a) e).
Proof.
  intros Hn Hs. unfold exec. destruct (step_cases a e); cbn; try done.
  unfold on_chain; cbn. by apply next_state_on_chain.
Qed.
End step_facts.

(** ** Sequences of [step] calls *)

Section runs.
Implicit Types (e : t) (a : Z) (acts : list Z) (rs : list step_result).

Lemma calls_cons_ok {A B} (f : A → method t B) x xs e y e1 ys e2 :
  f x e = (Return y, e1) → calls f xs e1 = (Return ys, e2) →
  calls f (x :: xs) e = (Return (y :: ys), e2).
Proof.
  intros H1 H2. cbn. unfold mbind, method_bind. rewrite H1.
  by rewrite H2.
Qed.

(** With [Discrete 2] as the action space, a run of valid actions
    goes through; the [i]-th call (counting from [0]) raises the
    counter to [_counter e + i + 1] and compares it with the horizon. *)
Lemma run_valid acts : ∀ e,
  action_space e = Some (spaces.Discrete 2) →
  Forall valid_action acts →
  ∃ rs e',
    calls step acts e = (Return rs, e') ∧
    length rs = length acts ∧
    _counter e' = _counter e + Z.of_nat (length acts) ∧
    ∀ (i : nat) r, rs !! i = Some r →
      done r = bool_decide (_horizon e ≤ _counter e + Z.of_nat (S i)).
Proof.
  induction acts as [|a acts IH]; intros e Hsp Hv.
  - exists [], e. split; [done|]. split; [done|]. split; [cbn; lia|].
    intros i r Hi. by destruct i.
  - apply Forall_cons in Hv as [Ha Hv].
    apply contains_Discrete_2 in Ha.
    pose proof (step_accepted a e _ Hsp Ha) as Hstep.
    set (e1 := set_counter (_counter e + 1) (set_state (next_state a e) e)) in *.
    destruct (IH e1) as (rs & e' & Hrun & Hlen & Hcnt & Hdone); [done..|].
    eexists (_ :: rs), e'. split; [by eapply calls_cons_ok|].
    split; [cbn; by rewrite Hlen|].
    split; [rewrite Hcnt; cbn [length _counter e1 set_counter]; lia|].
    intros [|i] r Hi.
    + by injection Hi as <-.
    + apply Hdone in Hi. rewrite Hi. cbn [_horizon _counter e1 set_counter set_state].
      apply bool_decide_ext. lia.
Qed.

End runs.

(** ** Episodes as sequences of operations *)

Section operations.
Implicit Types (e : t) (a : Z).

Lemma reset_writes e : exec reset e = set_counter 0 (set_state 0 e).
Proof. reflexivity. Qed.

Lemma operation_writes e e' :
  operation e e' → ∃ s c, e' = set_counter c (set_state s e).
Proof.
  intros [|a]; [rewrite reset_writes; eauto | apply step_writes].
Qed.

Lemma operation_static e e' : operation e e' → static e' = static e.
Proof. intros (s & c & ->)%operation_writes. reflexivity. Qed.

Lemma operations_static e e' : rtc operation e e' → static e' = static e.
Proof.
  induction 1 as [|e e1 e2 Hop _ IH]; [done|].
  rewrite IH. by apply operation_static.
Qed.

Lemma operation_on_chain e e' :
  1 ≤ n e → on_chain e → operation e e' → on_chain e'.
Proof.
  intros Hn Hs [|a].
  - rewrite reset_writes. unfold on_chain; cbn. lia.
  - by apply step_preserves_on_chain.
Qed.

Lemma operations_on_chain e e' :
  1 ≤ n e → on_chain e → rtc operation e e' → on_chain e'.
Proof.
  intros Hn Hs Hrun. induction Hrun as [|e e1 e2 Hop _ IH]; [done|].
  apply IH.
  - apply operation_static in Hop. unfold static in Hop.
    assert (n e1 = n e) as -> by congruence. done.
  - by eapply operation_on_chain.
Qed.

(** With [Discrete 2] the membership check accepts exactly [0] and [1]. *)
Lemma step_returns_iff_valid e a :
  action_space e = Some (spaces.Discrete 2) →
  is_Some (result (step a) e) ↔ valid_action a.
Proof.
  intros Hsp. rewrite <- contains_Discrete_2. unfold result.
  destruct (spaces.contains (spaces.Discrete 2) a) eqn:Hc.
  - rewrite (step_accepted a e _ Hsp Hc). cbn. split; eauto.
  - rewrite (step_rejected a e _ Hsp Hc). cbn.
    split; [by intros [??] | done].
Qed.
End operations.

(** * The properties of the chain environment *)

(** ** Rewards (C1, C2, C3) and the action check (C6) *)

(** C1: [step] with action [1] is to move to position [0] and return
    the small reward, [2] in the default configuration.  Evaluated on
    the default instance: as constructed the call raises
    [AttributeError]; with [Discrete 2] as action space it does move
    to position [0] from every position and counter value, but the
    reward it returns is the placeholder [-1], not [small_reward = 2]. *)
Theorem C1_retreat_reward_is_placeholder :
  step 1 (__init__ None) = (Raise AttributeError, __init__ None) ∧
  ∀ pos cnt : Z,
    let e := set_counter cnt (set_state pos (with_actions (__init__ None))) in
    small_reward e = 2 ∧
    step 1 e =
      (Return (0, -1, bool_decide (20 ≤ cnt + 1), ∅),
       set_counter (cnt + 1) (set_state 0 e)).
Proof.
  split; [by vm_compute|]. intros pos cnt e. split; [by vm_compute|].
  by rewrite (step_accepted 1 e (spaces.Discrete 2)).
Qed.

(** C2: [step] with action [0] below the end of the chain is to
    increment the position and return reward [0].  Evaluated on the
    default instance with [Discrete 2] as action space: from position
    [0] (and likewise from [18], the last position below the end) the
    position is incremented, but the reward returned is the
    placeholder [-1], not [0]. *)
Theorem C2_advance_reward_is_placeholder :
  let e := with_actions (__init__ None) in
  (state e = 0 ∧ n e = 20 ∧
   step 0 e = (Return (1, -1, false, ∅), set_counter 1 (set_state 1 e))) ∧
  step 0 (set_state 18 e) =
    (Return (19, -1, false, ∅), set_counter 1 (set_state 19 e)).
Proof. by vm_compute. Qed.

(** C3: [step] with action [0] at the end of the chain is to stay
    there and return the large reward, [10] in the default
    configuration.  Evaluated on the default instance with
    [Discrete 2] as action space at position [19 = n - 1]: the position
    stays [19], on this call and on the next one, but the reward
    returned each time is the placeholder [-1], not
    [large_reward = 10]. *)
Theorem C3_boundary_reward_is_placeholder :
  let e := set_state 19 (with_actions (__init__ None)) in
  state e = n e - 1 ∧ large_reward e = 10 ∧
  step 0 e = (Return (19, -1, false, ∅), set_counter 1 e) ∧
  step 0 (set_counter 1 e) = (Return (19, -1, false, ∅), set_counter 2 e).
Proof. by vm_compute. Qed.

(** C6: [step] is to fail exactly for the actions outside [{0, 1}].
    Evaluated on an instance as the constructor leaves it, for every
    configuration: [_setup_spaces] has assigned [None] to
    [action_space], so the call raises [AttributeError] for every
    action, the two valid ones included, and writes nothing. *)
Theorem C6_step_raises_without_action_space :
  ∀ (env_config : option (gmap string Z)) (a : Z),
    action_space (__init__ env_config) = None ∧
    step a (__init__ env_config) = (Raise AttributeError, __init__ env_config).
Proof.
  intros env_config a.
  assert (action_space (__init__ env_config) = None) as Hsp by reflexivity.
  split; [done|]. by apply step_no_space.
Qed.

(** ** The step counter and termination (C4) *)

(** The counter and the termination flag on an instance that has been
    given an action space: every [step] call that returns has raised
    the step counter by exactly one and reports [done] exactly when the
    counter has reached the horizon; when the horizon is the chain
    length [n] and the action space is [Discrete 2], a valid action
    does return, and any run of valid actions after [reset] goes
    through, its [k]-th call (counting from one) returning
    [done = true] exactly when [n ≤ k]. *)
Lemma counter_and_termination_with_actions (e : t) (a : Z) (acts : list Z)
    (Hsp : action_space e = Some (spaces.Discrete 2))
    (Hh : _horizon e = n e)
    (Ha : valid_action a)
    (Hacts : Forall valid_action acts) :
  (∀ e1 a1 r e1', step a1 e1 = (Return r, e1') →
     _counter e1' = _counter e1 + 1 ∧
     (done r = true ↔ _horizon e1 ≤ _counter e1')) ∧
  (∃ r e', step a e = (Return r, e') ∧
     _counter e' = _counter e + 1 ∧ (done r = true ↔ n e ≤ _counter e')) ∧
  (∃ rs e', calls step acts (exec reset e) = (Return rs, e') ∧
     length rs = length acts ∧
     _counter e' = Z.of_nat (length acts) ∧
     ∀ (k : nat) r, rs !! k = Some r →
       (done r = true ↔ n e ≤ Z.of_nat (S k))).
Proof.
  split; [|split].
  - intros e1 a1 r e1' Hstep.
    destruct (step_cases a1 e1) as [?|??|sp Hs Hc]; try discriminate.
    injection Hstep as <- <-. cbn. by rewrite bool_decide_eq_true.
  - apply contains_Discrete_2 in Ha.
    rewrite (step_accepted a e _ Hsp Ha). eexists _, _. split; [done|].
    cbn. rewrite bool_decide_eq_true, Hh. done.
  - destruct (run_valid acts (exec reset e)) as (rs & e' & Hrun & Hlen & Hcnt & Hdone);
      [by rewrite reset_writes | done |].
    exists rs, e'. split; [done|]. split; [done|].
    rewrite reset_writes in Hcnt, Hdone. cbn in Hcnt, Hdone.
    split; [lia|]. intros k r Hk. rewrite (Hdone k r Hk).
    rewrite bool_decide_eq_true, Hh. lia.
Qed.

(** An instance of [counter_and_termination_with_actions]. *)
Lemma counter_and_termination_example :
  let e := with_actions (__init__ (Some {[ "n" := 3 ]})) in
  n e = 3 ∧
  ∃ rs e', calls step [0; 1; 0; 0] (exec reset e) = (Return rs, e') ∧
    length rs = 4%nat ∧
    _counter e' = 4 ∧
    ∀ (k : nat) r, rs !! k = Some r → (done r = true ↔ n e ≤ Z.of_nat (S k)).
Proof.
  intros e. split; [by vm_compute|].
  apply (counter_and_termination_with_actions e 0 [0; 1; 0; 0]).
  - by vm_compute.
  - by vm_compute.
  - by left.
  - repeat (apply Forall_cons; split; [(by left) || (by right)|]).
    apply Forall_nil_2.
Defined.

(** C4: every [step] call is to raise the step counter by exactly one
    and to return [done] exactly when the counter has reached the
    horizon, so that the [n]-th call after [reset] ends the episode.
    Evaluated on an instance as the constructor leaves it, for every
    configuration, after [reset]: [_setup_spaces] has assigned [None]
    to [action_space], so [step] raises [AttributeError] for every
    action before it reaches the counter; the counter stays [0], no
    termination flag is returned, and a run of calls ends at its first
    call, however long it is. *)
Theorem C4_counter_stays_without_action_space :
  ∀ (env_config : option (gmap string Z)) (a : Z) (acts : list Z),
    let e := exec reset (__init__ env_config) in
    _counter e = 0 ∧
    step a e = (Raise AttributeError, e) ∧
    _counter (exec (step a) e) = 0 ∧
    result (step a) e = None ∧
    calls step (a :: acts) e = (Raise AttributeError, e).
Proof.
  intros env_config a acts e.
  assert (action_space e = None) as Hsp by reflexivity.
  pose proof (step_no_space a e Hsp) as Hstep.
  split; [done|]. split; [done|].
  split; [unfold exec; by rewrite Hstep|].
  split; [unfold result; by rewrite Hstep|].
  cbn. unfold mbind, method_bind. by rewrite Hstep.
Qed.

(** ** The position invariant (C5) *)

(** C5: for every chain length [n ≥ 1], after [reset] and after any
    further sequence of [reset] and [step] calls (with any actions,
    whether they return or raise) the position lies in [[0, n-1]]:
    [reset] establishes the invariant, [step] preserves it, and every
    position a [step] call returns lies in the same range. *)
Theorem C5_position_stays_on_chain (e e' : t)
    (HN : 1 ≤ n e)
    (Hrun : rtc operation (exec reset e) e') :
  0 ≤ state (exec reset e) ≤ n e - 1 ∧
  0 ≤ state e' ≤ n e - 1 ∧
  (∀ a, 0 ≤ state (exec (step a) e') ≤ n e - 1) ∧
  (∀ a r, result (step a) e' = Some r → 0 ≤ obs r ≤ n e - 1).
Proof.
  assert (on_chain (exec reset e)) as H0.
  { rewrite reset_writes. unfold on_chain; cbn. lia. }
  assert (n (exec reset e) = n e) as Hn0 by reflexivity.
  assert (on_chain e') as He'.
  { eapply operations_on_chain; [| |done]; [by rewrite Hn0|done]. }
  assert (n e' = n e) as Hn'.
  { apply operations_static in Hrun. unfold static in Hrun.
    rewrite <- Hn0. congruence. }
  split; [by rewrite <- Hn0|]. split; [by rewrite <- Hn'|].
  assert (1 ≤ n e') as HN' by by rewrite Hn'.
  split.
  - intros a. pose proof (step_preserves_on_chain a e' HN' He') as Hs.
    pose proof (operation_static _ _ (op_step e' a)) as Hst.
    unfold static in Hst. unfold on_chain in Hs.
    assert (n (exec (step a) e') = n e') as Hn'' by congruence.
    by rewrite Hn'', Hn' in Hs.
  - intros a r. unfold result.
    destruct (step_cases a e') as [?|??|sp Hs Hc]; cbn; try discriminate.
    intros [= <-]. cbn. rewrite <- Hn'. by apply next_state_on_chain.
Qed.

(** An instance of C5 on a concrete episode. *)
Lemma C5_witness :
  let e := with_actions (__init__ (Some {[ "n" := 2 ]})) in
  let e' := exec (step 0) (exec (step 0) (exec (step 0) (exec reset e))) in
  state e' = 1 ∧ 0 ≤ state e' ≤ n e - 1.
Proof.
  intros e e'. split; [by vm_compute|].
  apply (C5_position_stays_on_chain e e').
  - by vm_compute.
  - eapply rtc_l; [apply (op_step _ 0)|].
    eapply rtc_l; [apply (op_step _ 0)|].
    eapply rtc_l; [apply (op_step _ 0)|].
    apply rtc_refl.
Defined.

(** ** The shape of the results (C7) *)

(** C7: [reset] always returns position [0] and leaves the episode
    fresh (position [0], counter [0], everything else as it was);
    every [step] call that returns gives the 4-tuple of the new
    position, a reward, a termination flag and the empty dictionary;
    and with [Discrete 2] as action space every valid action does
    return. *)
Theorem C7_reset_and_step_results :
  (∀ e, reset e = (Return 0, set_counter 0 (set_state 0 e)) ∧
        state (exec reset e) = 0 ∧ _counter (exec reset e) = 0) ∧
  (∀ e a r e', step a e = (Return r, e') →
     r = (state e', reward r, done r, ∅) ∧ info r = ∅) ∧
  (∀ e a, action_space e = Some (spaces.Discrete 2) → valid_action a →
     ∃ r e', step a e = (Return r, e')).
Proof.
  split; [|split].
  - intros e. by rewrite reset_writes.
  - intros e a r e' Hstep.
    destruct (step_cases a e) as [?|??|sp Hs Hc]; try discriminate.
    by injection Hstep as <- <-.
  - intros e a Hsp Ha%contains_Discrete_2.
    rewrite (step_accepted a e _ Hsp Ha). eauto.
Qed.

(** An instance of C7 on a concrete episode. *)
Lemma C7_witness :
  let e := set_state 7 (with_actions (__init__ None)) in
  let r : step_result := (8, -1, false, ∅) in
  let e' := set_counter 1 (set_state 8 e) in
  step 0 e = (Return r, e') ∧
  r = (state e', reward r, done r, ∅) ∧ info r = ∅.
Proof.
  intros e r e'.
  assert (step 0 e = (Return r, e')) as Hstep by by vm_compute.
  split; [exact Hstep|].
  exact (proj1 (proj2 C7_reset_and_step_results) e 0 r e' Hstep).
Defined.

(** ** Determinism (C8) *)

(** C8: two instances with the same position, step counter,
    configuration and action space give, for the same action, the same
    outcome of [step] (the same tuple of position, reward, done and
    info, or the same exception) and agree again afterwards; the call
    is a function of the instance and the action, and all it writes
    are the position and the counter of that instance. *)
Theorem C8_step_deterministic (e1 e2 : t) (a : Z)
    (Hsame : same_episode e1 e2) :
  (step a e1).1 = (step a e2).1 ∧
  same_episode (exec (step a) e1) (exec (step a) e2) ∧
  ∃ s c, exec (step a) e1 = set_counter c (set_state s e1) ∧
         exec (step a) e2 = set_counter c (set_state s e2).
Proof.
  destruct Hsame as (Hst & Hc & Hn & Hsm & Hlg & Hh & Hsp).
  assert (next_state a e1 = next_state a e2) as Hnext.
  { unfold next_state. by rewrite Hst, Hn. }
  unfold exec.
  destruct (step_cases a e1) as [Hs1|sp Hs1 Hc1|sp Hs1 Hc1];
    destruct (step_cases a e2) as [Hs2|sp' Hs2 Hc2|sp' Hs2 Hc2];
    try congruence; cbn.
  - split; [done|]. split; [done|]. exists (state e1), (_counter e1).
    split; [by destruct e1|]. rewrite Hst, Hc. by destruct e2.
  - split; [done|]. split; [done|]. exists (state e1), (_counter e1).
    split; [by destruct e1|]. rewrite Hst, Hc. by destruct e2.
  - split; [by rewrite Hnext, Hh, Hc|].
    split; [unfold same_episode; cbn; by rewrite Hc|].
    eexists _, _. split; [done|]. by rewrite Hnext, Hc.
Qed.

(** An instance of C8 on a concrete episode. *)
Lemma C8_witness :
  let e1 := set_state 4 (with_actions (__init__ None)) in
  let e2 := set_observation_space (Some (spaces.Discrete 20)) e1 in
  e1 ≠ e2 ∧
  (step 0 e1).1 = Return (5, -1, false, ∅) ∧
  (step 0 e1).1 = (step 0 e2).1.
Proof.
  intros e1 e2. split; [by vm_compute|]. split; [by vm_compute|].
  apply (C8_step_deterministic e1 e2 0).
  by vm_compute.
Defined.

(** ** The shaped environment (C9) *)

(** C9: [ShapedChainEnv.step] gives, for every instance and every
    action, the same outcome (position, reward, done, info) and the
    same successor instance as [ChainEnv.step]. *)
Theorem C9_shaped_step_is_chain_step :
  ∀ (a : Z) (e : t), ShapedChainEnv.step a e = ChainEnv.step a e.
Proof. reflexivity. Qed.

(** ** The configuration is never written (C10) *)

(** C10: neither [step] nor [reset] assigns [n], [small_reward],
    [large_reward] or the horizon: every call, returning or raising,
    leaves the instance as it was up to its position and its step
    counter, so across any sequence of operations the configuration is
    the one the constructor set up, which without a configuration is
    [n = 20], [small_reward = 2], [large_reward = 10] and horizon [20]. *)
Theorem C10_configuration_is_preserved :
  (∀ a e, ∃ s c, exec (step a) e = set_counter c (set_state s e)) ∧
  (∀ e, exec reset e = set_counter 0 (set_state 0 e)) ∧
  (∀ e e', rtc operation e e' →
     n e' = n e ∧ small_reward e' = small_reward e ∧
     large_reward e' = large_reward e ∧ _horizon e' = _horizon e) ∧
  (∀ e', rtc operation (__init__ None) e' →
     n e' = 20 ∧ small_reward e' = 2 ∧ large_reward e' = 10 ∧ _horizon e' = 20).
Proof.
  assert (∀ e e', rtc operation e e' →
     n e' = n e ∧ small_reward e' = small_reward e ∧
     large_reward e' = large_reward e ∧ _horizon e' = _horizon e) as Hframe.
  { intros e e' Hrun%operations_static. unfold static in Hrun.
    by injection Hrun as -> -> -> -> _ _. }
  split; [apply step_writes|]. split; [apply reset_writes|].
  split; [exact Hframe|].
  intros e' Hrun. apply Hframe in Hrun. exact Hrun.
Qed.

(** An instance of C10 on a concrete episode. *)
Lemma C10_witness :
  let e := with_actions (__init__ None) in
  let e' := exec (step 0) (exec reset (exec (step 1) e)) in
  _counter e' = 1 ∧
  n e' = n e ∧ small_reward e' = small_reward e ∧
  large_reward e' = large_reward e ∧ _horizon e' = _horizon e.
Proof.
  intros e e'. split; [by vm_compute|].
  apply (proj1 (proj2 (proj2 C10_configuration_is_preserved)) e e').
  eapply rtc_l; [apply (op_step _ 1)|].
  eapply rtc_l; [apply op_reset|].
  eapply rtc_l; [apply (op_step _ 0)|].
  apply rtc_refl.
Defined.

(** * Further properties of the lesson's code *)

(** ** The constructor *)

Section constructor.
Implicit Types (d : gmap string Z) (env_config : option (gmap string Z)).

Lemma or_empty_default env_config : or_empty env_config = default ∅ env_config.
Proof. destruct env_config as [d|]; cbn; [|done]. by case_decide. Qed.

Lemma init_unfold env_config :
  __init__ env_config =
    ChainEnv.mk (default 20 (default ∅ env_config !! "n"))
       (default 2 (default ∅ env_config !! "small"))
       (default 10 (default ∅ env_config !! "large"))
       0 (default 20 (default ∅ env_config !! "n")) 0 None None.
Proof. unfold __init__. by rewrite or_empty_default. Qed.

(** X1: the constructor reads each of the keys ["n"], ["small"] and
    ["large"] with [dict.get]: a key that is present gives its value,
    also when that value is [0]; a key that is missing, as every key is
    when the configuration is [None] or empty, gives the default [20],
    [2] or [10].  The horizon is the chain length, and the episode
    starts at position [0] with counter [0] and no spaces assigned. *)
Theorem init_reads_config env_config :
  let e := __init__ env_config in
  let d := default ∅ env_config in
  (∀ v, d !! "n" = Some v → n e = v) ∧ (d !! "n" = None → n e = 20) ∧
  (∀ v, d !! "small" = Some v → small_reward e = v) ∧
  (d !! "small" = None → small_reward e = 2) ∧
  (∀ v, d !! "large" = Some v → large_reward e = v) ∧
  (d !! "large" = None → large_reward e = 10) ∧
  _horizon e = n e ∧ state e = 0 ∧ _counter e = 0 ∧
  action_space e = None ∧ observation_space e = None.
Proof.
  intros e d. subst e d. rewrite init_unfold. cbn.
  repeat split; try done; by intros; simplify_option_eq.
Qed.

(** X2: the constructor looks at nothing but those three keys:
    configurations that agree on them give the same instance; so do
    [None] and the empty dictionary; and an entry under any other key
    changes nothing. *)
Theorem init_depends_on_three_keys :
  (∀ d1 d2,
     d1 !! "n" = d2 !! "n" → d1 !! "small" = d2 !! "small" →
     d1 !! "large" = d2 !! "large" →
     __init__ (Some d1) = __init__ (Some d2)) ∧
  __init__ (Some ∅) = __init__ None ∧
  (∀ d (key : string) v,
     key ≠ "n" → key ≠ "small" → key ≠ "large" →
     __init__ (Some (<[key := v]> d)) = __init__ (Some d)).
Proof.
  split; [|split].
  - intros d1 d2 Hn Hs Hl. rewrite !init_unfold. cbn. by rewrite Hn, Hs, Hl.
  - by rewrite !init_unfold.
  - intros d key v Hn Hs Hl. rewrite !init_unfold. cbn.
    by rewrite !lookup_insert_ne.
Qed.

(** An instance of [init_depends_on_three_keys]. *)
Lemma init_extra_key_example :
  __init__ (Some (<["render" := 1]> {[ "n" := 0 ]})) = __init__ (Some {[ "n" := 0 ]}) ∧
  n (__init__ (Some {[ "n" := 0 ]})) = 0.
Proof.
  split; [|by vm_compute].
  by apply (proj2 (proj2 init_depends_on_three_keys)).
Defined.
End constructor.

(** ** Position, counter and termination within an episode *)

Section episode_invariants.
Implicit Types (e : t) (a : Z) (acts : list Z).

Lemma next_state_bounds a e :
  0 ≤ state e → 0 ≤ next_state a e ≤ state e + 1.
Proof.
  unfold next_state. intros Hs.
  destruct (a =? 1); [lia|]. destruct (state e <? n e - 1); lia.
Qed.

Lemma operation_position_counter e e' :
  0 ≤ state e ≤ _counter e → operation e e' → 0 ≤ state e' ≤ _counter e'.
Proof.
  intros Hs [|a].
  - rewrite reset_writes. cbn. lia.
  - unfold exec. destruct (step_cases a e); cbn; try done.
    pose proof (next_state_bounds a e). lia.
Qed.

Lemma operations_position_counter e e' :
  0 ≤ state e ≤ _counter e → rtc operation e e' → 0 ≤ state e' ≤ _counter e'.
Proof.
  intros H0 Hrun. induction Hrun as [|e1 e2 e3 Hop _ IH]; [done|].
  apply IH. by eapply operation_position_counter.
Qed.

(** X3: from [reset] on, through any calls of [step] and [reset], the
    position is at least [0] and at most the step counter: reaching
    position [k] takes at least [k] steps. *)
Theorem position_at_most_counter e e'
    (Hrun : rtc operation (exec reset e) e') :
  0 ≤ state e' ≤ _counter e'.
Proof.
  eapply operations_position_counter; [|exact Hrun].
  rewrite reset_writes. cbn. lia.
Qed.

(** An instance of [position_at_most_counter]. *)
Lemma position_counter_example :
  let e := with_actions (__init__ None) in
  let e' := exec (step 0) (exec (step 1) (exec (step 0) (exec reset e))) in
  (state e' = 1 ∧ _counter e' = 3) ∧ 0 ≤ state e' ≤ _counter e'.
Proof.
  intros e e'. split; [by vm_compute|].
  apply (position_at_most_counter e e').
  eapply rtc_l; [apply (op_step _ 0)|].
  eapply rtc_l; [apply (op_step _ 1)|].
  eapply rtc_l; [apply (op_step _ 0)|].
  apply rtc_refl.
Defined.

(** X4: when the horizon is the chain length, as the constructor sets it, a
    [step] that starts at the end of the chain, position [n - 1],
    returns [done = true] whatever the action: within an episode the
    branch that stays at the end can run only on a call that ends the
    episode. *)
Theorem step_at_end_is_terminal e e' a r e''
    (Hh : _horizon e = n e)
    (Hrun : rtc operation (exec reset e) e')
    (Hend : state e' = n e - 1)
    (Hstep : step a e' = (Return r, e'')) :
  done r = true.
Proof.
  assert (0 ≤ state e' ≤ _counter e') as Hpos.
  { eapply operations_position_counter; [|exact Hrun].
    rewrite reset_writes. cbn. lia. }
  assert (_horizon e' = n e) as Hh'.
  { apply operations_static in Hrun. unfold static in Hrun.
    rewrite <- Hh. change (_horizon e) with (_horizon (exec reset e)).
    congruence. }
  destruct (step_cases a e') as [?|??|sp Hs Hc]; try discriminate.
  injection Hstep as <- <-. cbn. apply bool_decide_eq_true. lia.
Qed.

(** An instance of [step_at_end_is_terminal]. *)
Lemma terminal_step_example :
  let e := with_actions (__init__ (Some {[ "n" := 3 ]})) in
  let e' := exec (step 0) (exec (step 0) (exec reset e)) in
  state e' = 2 ∧ done (2, -1, true, ∅) = true.
Proof.
  intros e e'. split; [by vm_compute|].
  apply (step_at_end_is_terminal e e' 0 (2, -1, true, ∅)
           (set_counter 3 e')).
  - by vm_compute.
  - eapply rtc_l; [apply (op_step _ 0)|].
    eapply rtc_l; [apply (op_step _ 0)|].
    apply rtc_refl.
  - by vm_compute.
  - by vm_compute.
Defined.

(** X5: [reset] undoes whatever happened before it: after any calls of
    [step] and [reset] it leaves the same instance as a [reset] of the
    instance they started from, so the same actions replay with the
    same outcome. *)
Theorem reset_restores e e' acts
    (Hrun : rtc operation e e') :
  exec reset e' = exec reset e ∧
  calls step acts (exec reset e') = calls step acts (exec reset e).
Proof.
  assert (exec reset e' = exec reset e) as Heq.
  { induction Hrun as [|e1 e2 e3 Hop _ IH]; [done|].
    rewrite IH. apply operation_writes in Hop as (s & c & ->).
    by rewrite !reset_writes. }
  by rewrite Heq.
Qed.

(** An instance of [reset_restores]. *)
Lemma reset_after_steps_example :
  let e := with_actions (__init__ None) in
  let e' := exec (step 0) (exec (step 0) e) in
  state e' = 2 ∧ exec reset e' = exec reset e.
Proof.
  intros e e'. split; [by vm_compute|].
  apply (reset_restores e e' []).
  eapply rtc_l; [apply (op_step _ 0)|].
  eapply rtc_l; [apply (op_step _ 0)|].
  apply rtc_refl.
Defined.
End episode_invariants.

(** ** The action check and runs of [step] *)

Section step_runs.
Implicit Types (e : t) (a : Z) (acts : list Z) (sp : spaces.Space).

(** X6: with [Discrete k] as action space, [step] returns exactly for the
    actions [0 ≤ a < k], at any position and any counter value, also
    after the episode has ended; for every other action it raises
    [AssertionError] and leaves the instance as it was. *)
Theorem step_checks_action e a k
    (Hsp : action_space e = Some (spaces.Discrete k)) :
  (is_Some (result (step a) e) ↔ 0 ≤ a < k) ∧
  (¬ 0 ≤ a < k → step a e = (Raise AssertionError, e)).
Proof.
  assert (spaces.contains (spaces.Discrete k) a = true ↔ 0 ≤ a < k) as Hc.
  { cbn. rewrite andb_true_iff, Z.leb_le, Z.ltb_lt. done. }
  destruct (spaces.contains (spaces.Discrete k) a) eqn:Hca.
  - unfold result. rewrite (step_accepted a e _ Hsp Hca). cbn.
    split; [|intros Hn; by destruct Hn; apply Hc].
    split; [intros _; by apply Hc | eauto].
  - assert (¬ 0 ≤ a < k) as Hn by (intros H%Hc; done).
    unfold result. rewrite (step_rejected a e _ Hsp Hca). cbn.
    split; [|done]. split; [by intros [??] | done].
Qed.

(** An instance of [step_checks_action]. *)
Lemma rejected_action_example :
  let e := with_actions (__init__ None) in
  step 2 e = (Raise AssertionError, e).
Proof.
  intros e.
  apply (proj2 (step_checks_action e 2 2 eq_refl)). lia.
Defined.

(** X7: [step] compares the action with [1] only: every accepted action
    other than [1] does exactly what action [0] does. *)
Theorem other_actions_advance e a sp
    (Hsp : action_space e = Some sp)
    (Ha : spaces.contains sp a = true)
    (H0 : spaces.contains sp 0 = true)
    (Hne : a ≠ 1) :
  step a e = step 0 e.
Proof.
  rewrite (step_accepted a e sp Hsp Ha), (step_accepted 0 e sp Hsp H0).
  unfold next_state. destruct (Z.eqb_spec a 1); [done|]. done.
Qed.

(** An instance of [other_actions_advance]. *)
Lemma action_two_example :
  let e := set_action_space (Some (spaces.Discrete 3)) (__init__ None) in
  result (step 2) e = Some (1, -1, false, ∅) ∧ step 2 e = step 0 e.
Proof.
  intros e. split; [by vm_compute|].
  by apply (other_actions_advance e 2 (spaces.Discrete 3)).
Defined.

Lemma calls_cons_inv {A B} (f : A → method t B) x xs e ys e2 :
  calls f (x :: xs) e = (Return ys, e2) →
  ∃ y e1 ys', f x e = (Return y, e1) ∧
    calls f xs e1 = (Return ys', e2) ∧ ys = y :: ys'.
Proof.
  cbn. unfold mbind, method_bind.
  destruct (f x e) as [[y|ex] e1]; [|done].
  destruct (calls f xs e1) as [[ys'|ex] e1'] eqn:Hrest; [|done].
  cbn. intros [= <- <-]. by eexists _, _, _.
Qed.

(** In a run that went through, the call at index [i] has raised the
    counter to [_counter e + i + 1] and compared it with the horizon. *)
Lemma run_done acts : ∀ e rs e',
  calls step acts e = (Return rs, e') →
  length rs = length acts ∧
  _counter e' = _counter e + Z.of_nat (length acts) ∧
  ∀ (i : nat) r, rs !! i = Some r →
    done r = bool_decide (_horizon e ≤ _counter e + Z.of_nat (S i)).
Proof.
  induction acts as [|a acts IH]; intros e rs e' Hrun.
  - injection Hrun as <- <-. split; [done|]. split; [cbn; lia|].
    intros i r Hi. by destruct i.
  - apply calls_cons_inv in Hrun as (r0 & e1 & rs' & Hstep & Hrest & ->).
    destruct (step_cases a e) as [?|??|sp Hs Hc]; try discriminate.
    injection Hstep as <- <-.
    apply IH in Hrest as (Hlen & Hcnt & Hdone). cbn in Hcnt, Hdone.
    split; [cbn; by rewrite Hlen|]. split; [rewrite Hcnt; cbn [length]; lia|].
    intros [|i] r Hi.
    + by injection Hi as <-.
    + apply Hdone in Hi. rewrite Hi. apply bool_decide_ext. lia.
Qed.

(** X8: [step] does not look at [done]: it goes on running after the
    episode has ended, and once a call of a run has returned
    [done = true] every later call of the run returns [done = true]
    as well. *)
Theorem done_is_monotone e acts rs e' (i j : nat) ri rj
    (Hrun : calls step acts e = (Return rs, e'))
    (Hi : rs !! i = Some ri) (Hj : rs !! j = Some rj)
    (Hij : (i ≤ j)%nat)
    (Hdone : done ri = true) :
  done rj = true.
Proof.
  apply run_done in Hrun as (_ & _ & Hd).
  rewrite (Hd i ri Hi) in Hdone. rewrite (Hd j rj Hj).
  apply bool_decide_eq_true in Hdone. apply bool_decide_eq_true. lia.
Qed.

(** An instance of [done_is_monotone]. *)
Lemma done_stays_example :
  let e := with_actions (__init__ (Some {[ "n" := 2 ]})) in
  result (calls step [0; 0; 1; 0]) e =
    Some [(1, -1, false, ∅); (1, -1, true, ∅); (0, -1, true, ∅); (1, -1, true, ∅)] ∧
  done (1, -1, true, ∅) = true.
Proof.
  intros e. split; [by vm_compute|].
  apply (done_is_monotone e [0; 0; 1; 0]
           [(1, -1, false, ∅); (1, -1, true, ∅); (0, -1, true, ∅); (1, -1, true, ∅)]
           (set_counter 4 (set_state 1 e)) 1 3 (1, -1, true, ∅) (1, -1, true, ∅)).
  - by vm_compute.
  - reflexivity.
  - reflexivity.
  - lia.
  - reflexivity.
Defined.

(** X15: [k] advances in a row from a position on or below the end of the
    chain: the run goes through, raises the counter by [k], and moves
    the position up by [k] but not beyond the end, [n - 1]. *)
Theorem advance_k_times (k : nat) : ∀ e sp
    (Hsp : action_space e = Some sp)
    (H0 : spaces.contains sp 0 = true)
    (Hpos : state e ≤ n e - 1),
  ∃ rs e', calls step (replicate k 0) e = (Return rs, e') ∧
    state e' = Z.min (state e + Z.of_nat k) (n e - 1) ∧
    _counter e' = _counter e + Z.of_nat k ∧
    static e' = static e.
Proof.
  induction k as [|k IH]; intros e sp Hsp H0 Hpos.
  - exists [], e. split; [done|]. split; [lia|]. split; [lia|done].
  - pose proof (step_accepted 0 e sp Hsp H0) as Hstep.
    set (e1 := set_counter (_counter e + 1) (set_state (next_state 0 e) e)) in *.
    assert (next_state 0 e = Z.min (state e + 1) (n e - 1)) as Hnext.
    { unfold next_state. cbn. destruct (Z.ltb_spec (state e) (n e - 1)); lia. }
    destruct (IH e1 sp) as (rs & e' & Hrun & Hst & Hcnt & Hstat); [done|done|..].
    { change (next_state 0 e ≤ n e - 1). lia. }
    eexists _, e'. split.
    { change (replicate (S k) 0) with (0 :: replicate k 0).
      by eapply calls_cons_ok. }
    change (state e1) with (next_state 0 e) in Hst.
    change (n e1) with (n e) in Hst.
    change (_counter e1) with (_counter e + 1) in Hcnt.
    split; [lia|]. split; [lia|]. by rewrite Hstat.
Qed.

(** An instance of [advance_k_times]. *)
Lemma advance_25_example :
  let e := with_actions (__init__ None) in
  ∃ rs e', calls step (replicate 25 0) e = (Return rs, e') ∧
    state e' = Z.min (state e + Z.of_nat 25) (n e - 1) ∧
    _counter e' = _counter e + Z.of_nat 25 ∧
    static e' = static e.
Proof.
  intros e. apply (advance_k_times 25 e (spaces.Discrete 2)).
  - reflexivity.
  - reflexivity.
  - by vm_compute.
Defined.
End step_runs.

(** ** Counting samples *)

Section counting.
Import sampling.
Implicit Types (counts : gmap Z Z) (samples : list Z) (key : Z).

Lemma initial_counts_lookup key :
  initial_counts !! key = if decide (0 ≤ key < 10) then Some 0 else None.
Proof.
  unfold initial_counts.
  change (seqZ 0 10) with [0; 1; 2; 3; 4; 5; 6; 7; 8; 9].
  cbn [fmap list_fmap list_to_map foldr uncurry fst snd].
  case_decide as Hk.
  - assert (key = 0 ∨ key = 1 ∨ key = 2 ∨ key = 3 ∨ key = 4 ∨
            key = 5 ∨ key = 6 ∨ key = 7 ∨ key = 8 ∨ key = 9) as Hkey by lia.
    repeat (destruct Hkey as [->|Hkey]; [by vm_compute|]). subst key.
    by vm_compute.
  - rewrite !lookup_insert_ne by lia. apply lookup_empty.
Qed.

Lemma occurrences_cons key x samples :
  occurrences key (x :: samples) =
    (if decide (x = key) then 1 else 0) + occurrences key samples.
Proof.
  unfold occurrences. rewrite filter_cons.
  case_decide; cbn [length]; lia.
Qed.

(** Counting from any dictionary: the loop goes through exactly when
    every sample is a key of the dictionary, and then adds to each
    entry the number of times its key was drawn. *)
Lemma count_from_spec samples : ∀ counts,
  Forall (λ x, is_Some (counts !! x)) samples →
  ∃ counts', count_from counts samples = Some counts' ∧
    ∀ key, counts' !! key = (λ c, c + occurrences key samples) <$> counts !! key.
Proof.
  induction samples as [|x samples IH]; intros counts Hall.
  - exists counts. split; [done|]. intros key.
    destruct (counts !! key); cbn; [f_equal; unfold occurrences; cbn; lia|done].
  - apply Forall_cons in Hall as [[c Hc] Hall].
    destruct (IH (<[x := c + 1]> counts)) as (counts' & Hrun & Hlook).
    { eapply Forall_impl; [exact Hall|]. intros y Hy. cbn in Hy.
      rewrite lookup_insert. by case_decide. }
    exists counts'. split.
    { cbn. unfold count_one. rewrite Hc. cbn. exact Hrun. }
    intros key. rewrite Hlook, occurrences_cons, lookup_insert.
    case_decide as Hk.
    + subst key. rewrite Hc. cbn. f_equal. lia.
    + destruct (counts !! key); cbn; [f_equal; lia|done].
Qed.

Lemma count_from_missing samples : ∀ counts,
  (∀ key, is_Some (counts !! key) ↔ 0 ≤ key < 10) →
  is_Some (count_from counts samples) → Forall (λ x, 0 ≤ x < 10) samples.
Proof.
  induction samples as [|x samples IH]; intros counts Hdom Hsome.
  - constructor.
  - cbn in Hsome. unfold count_one in Hsome.
    destruct (counts !! x) as [c|] eqn:Hc; cbn in Hsome; [|by destruct Hsome].
    assert (0 ≤ x < 10) as Hx by (apply Hdom; eauto).
    constructor; [done|]. apply (IH (<[x := c + 1]> counts)); [|done].
    intros key. rewrite lookup_insert. case_decide as Hk.
    + subst key. split; [done|eauto].
    + apply Hdom.
Qed.

Lemma initial_counts_dom key : is_Some (initial_counts !! key) ↔ 0 ≤ key < 10.
Proof.
  rewrite initial_counts_lookup. case_decide; split; try done; eauto.
Qed.

(** X13: the counting loop raises no [KeyError] exactly when every draw is
    one of the keys [0] to [9], as every sample of [Discrete(10)] is; a
    draw outside that range makes the read of [counts[key]] fail. *)
Theorem count_samples_succeeds_iff samples :
  is_Some (count_samples samples) ↔ Forall (λ x, 0 ≤ x < 10) samples.
Proof.
  split.
  - apply count_from_missing, initial_counts_dom.
  - intros Hall. unfold count_samples.
    destruct (count_from_spec samples initial_counts) as (c & -> & _); [|done].
    eapply Forall_impl; [exact Hall|]. intros x Hx. by apply initial_counts_dom.
Qed.

Lemma count_samples_spec samples
    (Hall : Forall (λ x, 0 ≤ x < 10) samples) :
  ∃ counts, count_samples samples = Some counts ∧
    (∀ key, 0 ≤ key < 10 → counts !! key = Some (occurrences key samples)) ∧
    (∀ key, ¬ 0 ≤ key < 10 → counts !! key = None).
Proof.
  destruct (count_from_spec samples initial_counts) as (counts & Hrun & Hlook).
  { eapply Forall_impl; [exact Hall|]. intros x Hx. by apply initial_counts_dom. }
  exists counts. split; [done|]. split; intros key Hk.
  - rewrite Hlook, initial_counts_lookup, decide_True by done. cbn. f_equal.
  - by rewrite Hlook, initial_counts_lookup, decide_False by done.
Qed.

(** X14: when every draw is in range the loop ends with, under each key [0]
    to [9], the number of times that key was drawn, and with no other
    key. *)
Theorem count_samples_counts samples
    (Hall : Forall (λ x, 0 ≤ x < 10) samples) :
  ∃ counts, count_samples samples = Some counts ∧
    (∀ key, 0 ≤ key < 10 → counts !! key = Some (occurrences key samples)) ∧
    (∀ key, ¬ 0 ≤ key < 10 → counts !! key = None).
Proof. by apply count_samples_spec. Qed.

(** An instance of [count_samples_counts]. *)
Lemma count_five_draws_example :
  ∃ counts, count_samples [3; 9; 3; 0; 3] = Some counts ∧
    counts !! 3 = Some 3 ∧ counts !! 7 = Some 0 ∧ counts !! 10 = None.
Proof.
  destruct (count_samples_counts [3; 9; 3; 0; 3]) as (counts & Hrun & Hin & Hout).
  { repeat (apply Forall_cons; split; [lia|]). apply Forall_nil_2. }
  exists counts. split; [exact Hrun|].
  split; [exact (Hin 3 ltac:(lia))|].
  split; [exact (Hin 7 ltac:(lia))|].
  apply Hout. lia.
Defined.

Lemma occurrences_total samples :
  Forall (λ x, 0 ≤ x < 10) samples →
  foldr Z.add 0 ((λ key, occurrences key samples) <$> seqZ 0 10) =
    Z.of_nat (length samples).
Proof.
  change (seqZ 0 10) with [0; 1; 2; 3; 4; 5; 6; 7; 8; 9].
  cbn [fmap list_fmap foldr].
  induction 1 as [|x samples Hx _ IH]; [done|].
  rewrite !occurrences_cons. cbn [length]. rewrite Nat2Z.inj_succ, <- IH.
  assert (x = 0 ∨ x = 1 ∨ x = 2 ∨ x = 3 ∨ x = 4 ∨
          x = 5 ∨ x = 6 ∨ x = 7 ∨ x = 8 ∨ x = 9) as Hcase by lia.
  clear Hx IH.
  repeat (destruct Hcase as [->|Hcase]; [repeat (case_decide; try lia)|]).
  subst x. repeat (case_decide; try lia).
Qed.

(** X16: when every draw is in range, the ten counts add up to the number
    of draws ([200] in the lesson). *)
Theorem count_samples_total samples
    (Hall : Forall (λ x, 0 ≤ x < 10) samples) :
  ∃ counts, count_samples samples = Some counts ∧
    foldr Z.add 0 ((λ key, default 0 (counts !! key)) <$> seqZ 0 10) =
      Z.of_nat (length samples).
Proof.
  destruct (count_samples_spec samples Hall) as (counts & Hrun & Hin & _).
  exists counts. split; [done|].
  rewrite <- (occurrences_total samples Hall). f_equal.
  apply list_fmap_ext. intros i key Hkey.
  apply lookup_seqZ in Hkey as [-> Hi]. by rewrite Hin by lia.
Qed.

(** An instance of [count_samples_total]. *)
Lemma total_five_draws_example :
  ∃ counts, count_samples [3; 9; 3; 0; 3] = Some counts ∧
    foldr Z.add 0 ((λ key, default 0 (counts !! key)) <$> seqZ 0 10) = 5.
Proof.
  apply (count_samples_total [3; 9; 3; 0; 3]).
  repeat (apply Forall_cons; split; [lia|]). apply Forall_nil_2.
Defined.
End counting.
